(** * fmtor: formatting adapters for [Option<T>]

    A shallow embedding of [src/lib.rs] of the fmtor crate.

    - [core::fmt::Formatter] is split in two: its directives (fill, alignment,
      width, precision, flags), which the wrapper passes through unchanged and
      are read-only here, and its output sink, threaded as state together with
      the caller's environment (the interior-mutable state a [Fn()] closure or
      a user [fmt] implementation may touch).
    - [fmt::Result] is [FResult unit]; [fmt::Error] is the unit struct
      [Error].
    - A formatting trait implementation [impl Trait for A] is a function
      [fmt_fn A]; the nine traits of [impl_fmt_traits!] are the constructors of
      [Mode].
    - The [&'t Option<T>] borrowed by a wrapper is the [option T] value itself:
      no wrapper mutates it.
    - [char] is modelled as [ascii] and [&str] as [string]. *)

From Stdlib Require Import String Ascii ZArith List Bool Lia.
Import ListNotations.
Open Scope string_scope.

(** ** The formatter's directives *)

Inductive Alignment := Left | Right | Center.

Record Formatter := mkFormatter {
  fill : ascii;
  align : option Alignment;
  width : option nat;
  precision : option nat;
  sign_plus : bool;
  sign_minus : bool;
  alternate : bool;
  sign_aware_zero_pad : bool;
  debug_lower_hex : bool;
  debug_upper_hex : bool
}.

(** The directives of an empty format spec [{}]. *)
Definition default_formatter : Formatter :=
  mkFormatter " "%char None None None false false false false false false.

(** The nine formatting traits instantiated by [impl_fmt_traits!]. *)
Inductive Mode :=
  | Binary | Debug | Display | LowerExp | LowerHex | Octal | Pointer
  | UpperExp | UpperHex.

Definition all_modes : list Mode :=
  [Binary; Debug; Display; LowerExp; LowerHex; Octal; Pointer; UpperExp; UpperHex].

(** ** The formatting monad *)

(** [pub struct Error;] *)
Inductive Error := FmtError.

Inductive FResult (A : Type) :=
  | Ok (a : A)
  | Err (e : Error).
Arguments Ok {A} a.
Arguments Err {A} e.

(** The output sink: the text written so far, and how many more characters
    it accepts ([None]: unbounded, as a [String]). *)
Record Sink := mkSink { written : string; room : option nat }.

Section Monad.
Context {Env : Type}.

Record World := mkWorld { sink : Sink; env : Env }.

Definition FmtM (A : Type) := World -> World * FResult A.

Definition ret {A} (a : A) : FmtM A := fun w => (w, Ok a).

Definition bind {A B} (m : FmtM A) (k : A -> FmtM B) : FmtM B :=
  fun w => match m w with
           | (w', Ok a) => k a w'
           | (w', Err e) => (w', Err e)
           end.

(** [Write::write_str] on the sink. *)
Definition write_str (s : string) : FmtM unit :=
  fun w =>
    let sk := sink w in
    match room sk with
    | None => (mkWorld (mkSink (written sk ++ s) None) (env w), Ok tt)
    | Some n =>
        if Nat.leb (String.length s) n
        then (mkWorld (mkSink (written sk ++ s) (Some (n - String.length s))) (env w), Ok tt)
        else (w, Err FmtError)
    end.

Definition write_char (c : ascii) : FmtM unit := write_str (String c EmptyString).

(** A zero-argument producer [F: Fn() -> U]: calling it may act on the
    caller's environment only (it has no access to the formatter). *)
Definition Producer (U : Type) := Env -> Env * U.

(** [f()] *)
Definition call {U} (f : Producer U) : FmtM U :=
  fun w => let (e', u) := f (env w) in (mkWorld (sink w) e', Ok u).

End Monad.

Arguments FmtM Env A : clear implicits.

Notation "x <- m ;; k" := (bind m (fun x => k))
  (at level 61, m at next level, right associativity).
Notation "m ;;; k" := (bind m (fun _ => k))
  (at level 61, right associativity).

(** [fn fmt(&self, out: &mut Formatter<'_>) -> Result] for a type [A]. *)
Definition fmt_fn (Env A : Type) := A -> Formatter -> FmtM Env unit.

(** ** The parts of [core::fmt] the wrappers and the scenarios go through *)

Module CoreFmt.

(** [for _ in 0..n { f.buf.write_char(fill)?; }] *)
Fixpoint write_fill {Env} (n : nat) (c : ascii) : FmtM Env unit :=
  match n with
  | O => ret tt
  | S n' => write_char c ;;; write_fill n' c
  end.

(** [Formatter::padding]: writes the pre-padding, returns the post-padding. *)
Definition padding {Env} (f : Formatter) (pad : nat) (default : Alignment)
  : FmtM Env nat :=
  let a := match align f with None => default | Some a => a end in
  let '(pre, post) := match a with
                      | Left => (0, pad)
                      | Right => (pad, 0)
                      | Center => (Nat.div pad 2, Nat.div (pad + 1) 2)
                      end in
  write_fill pre (fill f) ;;; ret post.

(** [Formatter::pad]: how [impl Display for str] writes a string. *)
Definition pad {Env} (f : Formatter) (s : string) : FmtM Env unit :=
  match width f, precision f with
  | None, None => write_str s
  | _, _ =>
      let s := match precision f with
               | Some max => if Nat.ltb max (String.length s) then substring 0 max s else s
               | None => s
               end in
      match width f with
      | None => write_str s
      | Some w =>
          if Nat.leb w (String.length s) then write_str s
          else post <- padding f (w - String.length s) Left ;;
               write_str s ;;;
               write_fill post (fill f)
      end
  end.

(** [impl Display for str] (and for [&str], [&&str], which forward to it). *)
Definition str_display {Env} : fmt_fn Env string := fun s f => pad f s.

(** [write_prefix] of [Formatter::pad_integral]. *)
Definition write_prefix {Env} (sign : option ascii) (prefix : option string)
  : FmtM Env unit :=
  (match sign with Some c => write_char c | None => ret tt end) ;;;
  (match prefix with Some p => write_str p | None => ret tt end).

(** [Formatter::pad_integral]. *)
Definition pad_integral {Env} (f : Formatter) (is_nonnegative : bool)
  (prefix : string) (buf : string) : FmtM Env unit :=
  let '(sign, w0) :=
    if negb is_nonnegative then (Some "-"%char, String.length buf + 1)
    else if sign_plus f then (Some "+"%char, String.length buf + 1)
    else (None, String.length buf) in
  let '(pfx, w1) :=
    if alternate f then (Some prefix, w0 + String.length prefix) else (None, w0) in
  match width f with
  | None => write_prefix sign pfx ;;; write_str buf
  | Some min =>
      if Nat.leb min w1 then write_prefix sign pfx ;;; write_str buf
      else if sign_aware_zero_pad f then
        let f' := mkFormatter "0"%char (Some Right) (width f) (precision f)
                    (sign_plus f) (sign_minus f) (alternate f)
                    (sign_aware_zero_pad f) (debug_lower_hex f) (debug_upper_hex f) in
        write_prefix sign pfx ;;;
        post <- padding f' (min - w1) Right ;;
        write_str buf ;;;
        write_fill post (fill f')
      else
        post <- padding f (min - w1) Right ;;
        write_prefix sign pfx ;;;
        write_str buf ;;;
        write_fill post (fill f)
  end.

(** One digit of [GenericRadix::digit]. *)
Definition digit (upper : bool) (d : Z) : ascii :=
  if (d <? 10)%Z then ascii_of_nat (48 + Z.to_nat d)
  else ascii_of_nat ((if upper then 55 else 87) + Z.to_nat d).

(** The digit loop of [GenericRadix::fmt_int]: least significant digit
    first, stopping once the quotient is zero; [fuel] bounds the number of
    digits (64 covers every 64-bit value in every radix). *)
Fixpoint digits_aux (fuel : nat) (radix : Z) (upper : bool) (x : Z) (acc : string)
  : string :=
  match fuel with
  | O => acc
  | S fuel' =>
      let acc := String (digit upper (x mod radix)) acc in
      let x := (x / radix)%Z in
      if (x =? 0)%Z then acc else digits_aux fuel' radix upper x acc
  end.

Definition digits (radix : Z) (upper : bool) (x : Z) : string :=
  digits_aux 64 radix upper x EmptyString.

(** [self as u32] for an [i32]. *)
Definition as_u32 (x : Z) : Z := (x mod 2 ^ 32)%Z.

(** [GenericRadix::fmt_int] for [i32]: [Binary], [Octal], [LowerHex],
    [UpperHex] format the two's-complement bits. *)
Definition i32_radix_fmt {Env} (radix : Z) (upper : bool) (prefix : string)
  : fmt_fn Env Z :=
  fun x f => pad_integral f true prefix (digits radix upper (as_u32 x)).

Definition i32_binary {Env} : fmt_fn Env Z := i32_radix_fmt 2 false "0b".
Definition i32_octal {Env} : fmt_fn Env Z := i32_radix_fmt 8 false "0o".
Definition i32_lower_hex {Env} : fmt_fn Env Z := i32_radix_fmt 16 false "0x".
Definition i32_upper_hex {Env} : fmt_fn Env Z := i32_radix_fmt 16 true "0x".

(** [impl Display for i32]. *)
Definition i32_display {Env} : fmt_fn Env Z :=
  fun x f => pad_integral f (0 <=? x)%Z "" (digits 10 false (Z.abs x)).

(** [impl Debug for i32]. *)
Definition i32_debug {Env} : fmt_fn Env Z :=
  fun x f =>
    if debug_lower_hex f then i32_lower_hex x f
    else if debug_upper_hex f then i32_upper_hex x f
    else i32_display x f.

End CoreFmt.

(** ** The crate: [src/lib.rs] *)

Module Fmtor.
Import CoreFmt.

Section Wrappers.
Context {Env : Type}.

(** [pub struct MaybeFormat<'t, T>(&'t Option<T>);] *)
Record MaybeFormat (T : Type) := MkMaybeFormat { mf_0 : option T }.
(** [pub struct MaybeFormatOr<'t, T, U>(&'t Option<T>, U);] *)
Record MaybeFormatOr (T U : Type) := MkMaybeFormatOr { mfo_0 : option T; mfo_1 : U }.
(** [pub struct MaybeFormatOrElse<'t, T, F>(&'t Option<T>, F);] with
    [F: Fn() -> U]. *)
Record MaybeFormatOrElse (T U : Type) :=
  MkMaybeFormatOrElse { mfe_0 : option T; mfe_1 : @Producer Env U }.

Arguments MkMaybeFormat {T} mf_0.
Arguments mf_0 {T} m.
Arguments MkMaybeFormatOr {T U} mfo_0 mfo_1.
Arguments mfo_0 {T U} m.
Arguments mfo_1 {T U} m.
Arguments MkMaybeFormatOrElse {T U} mfe_0 mfe_1.
Arguments mfe_0 {T U} m.
Arguments mfe_1 {T U} m.

(** [impl<T> FmtOr<T> for Option<T>] *)
Definition fmt_or_empty {T} (self : option T) : MaybeFormat T :=
  MkMaybeFormat self.
Definition fmt_or {T U} (self : option T) (u : U) : MaybeFormatOr T U :=
  MkMaybeFormatOr self u.
Definition fmt_or_else {T U} (self : option T) (f : Producer U)
  : MaybeFormatOrElse T U :=
  MkMaybeFormatOrElse self f.

(** [impl<'t, T, F, U> $Trait for MaybeFormatOrElse<'t, T, F>
    where T: $Trait, F: Fn() -> U, U: Display]:
    [if let Some(t) = self.0 { <T as $Trait>::fmt(t, out) }
     else { Display::fmt(&self.1(), out) }] *)
Definition maybe_format_or_else_fmt {T U} (fmt_T : fmt_fn Env T)
  (display_U : fmt_fn Env U) : fmt_fn Env (MaybeFormatOrElse T U) :=
  fun self out =>
    match mfe_0 self with
    | Some t => fmt_T t out
    | None => u <- call (mfe_1 self) ;; display_U u out
    end.

(** [impl<'t, T, U> $Trait for MaybeFormatOr<'t, T, U>
    where T: $Trait, U: Display]:
    [$Trait::fmt(&self.0.fmt_or_else(||&self.1), out)]; the closure returns
    a reference to the stored fallback, and [Display] for [&U] forwards to
    [U]. *)
Definition maybe_format_or_fmt {T U} (fmt_T : fmt_fn Env T)
  (display_U : fmt_fn Env U) : fmt_fn Env (MaybeFormatOr T U) :=
  fun self out =>
    maybe_format_or_else_fmt fmt_T display_U
      (fmt_or_else (mfo_0 self) (fun e => (e, mfo_1 self))) out.

(** [impl<'t, T> $Trait for MaybeFormat<'t, T> where T: $Trait]:
    [$Trait::fmt(&self.0.fmt_or(""), out)]. *)
Definition maybe_format_fmt {T} (fmt_T : fmt_fn Env T) : fmt_fn Env (MaybeFormat T) :=
  fun self out =>
    maybe_format_or_fmt fmt_T str_display (fmt_or (mf_0 self) "") out.

(** [#[derive(PartialEq)]] on [MaybeFormat]: field-wise, through
    [&Option<T>], i.e. the derived [PartialEq] of [Option<T>]. *)
Definition option_eq {T} (eq_T : T -> T -> bool) (a b : option T) : bool :=
  match a, b with
  | Some x, Some y => eq_T x y
  | None, None => true
  | _, _ => false
  end.

Definition maybe_format_eq {T} (eq_T : T -> T -> bool) (a b : MaybeFormat T) : bool :=
  option_eq eq_T (mf_0 a) (mf_0 b).

(** [impl Clone for MaybeFormat]: [*self]. *)
Definition maybe_format_clone {T} (self : MaybeFormat T) : MaybeFormat T := self.



End Wrappers.

Arguments MaybeFormatOrElse Env T U : clear implicits.

(** *** The crate's trait implementations, as declared

    Each [impl] block (derived or written) of [src/lib.rs]: the type it is
    for, the trait, and the bounds on the type's parameters. [PT] is [T];
    [PSecond] is the second parameter ([U] of [MaybeFormatOr], [F] of
    [MaybeFormatOrElse]); [PFOut] is the [U] returned by [F]. *)

Inductive Ty := TyMaybeFormat | TyMaybeFormatOr | TyMaybeFormatOrElse.

Inductive RustTrait :=
  | TFmt (m : Mode) | TCopy | TClone | TPartialEq | TEq | TFnNoArgs.

Inductive Param := PT | PSecond | PFOut.

Record ImplBlock := { ib_self : Ty; ib_trait : RustTrait; ib_bounds : list (Param * RustTrait) }.

Definition ty_eqb (a b : Ty) : bool :=
  match a, b with
  | TyMaybeFormat, TyMaybeFormat | TyMaybeFormatOr, TyMaybeFormatOr
  | TyMaybeFormatOrElse, TyMaybeFormatOrElse => true
  | _, _ => false
  end.

Definition mode_eqb (a b : Mode) : bool :=
  match a, b with
  | Binary, Binary | Debug, Debug | Display, Display | LowerExp, LowerExp
  | LowerHex, LowerHex | Octal, Octal | Pointer, Pointer
  | UpperExp, UpperExp | UpperHex, UpperHex => true
  | _, _ => false
  end.

Definition trait_eqb (a b : RustTrait) : bool :=
  match a, b with
  | TFmt m, TFmt m' => mode_eqb m m'
  | TCopy, TCopy | TClone, TClone | TPartialEq, TPartialEq | TEq, TEq
  | TFnNoArgs, TFnNoArgs => true
  | _, _ => false
  end.

(** The three impls generated by [impl_fmt_traits!] for one trait. *)
Definition fmt_impls (m : Mode) : list ImplBlock :=
  [ {| ib_self := TyMaybeFormat; ib_trait := TFmt m; ib_bounds := [(PT, TFmt m)] |};
    {| ib_self := TyMaybeFormatOr; ib_trait := TFmt m;
       ib_bounds := [(PT, TFmt m); (PSecond, TFmt Display)] |};
    {| ib_self := TyMaybeFormatOrElse; ib_trait := TFmt m;
       ib_bounds := [(PT, TFmt m); (PSecond, TFnNoArgs); (PFOut, TFmt Display)] |} ].

(** Every impl block of the crate. *)
Definition crate_impls : list ImplBlock :=
  [ {| ib_self := TyMaybeFormat; ib_trait := TEq; ib_bounds := [(PT, TEq)] |};
    {| ib_self := TyMaybeFormat; ib_trait := TPartialEq; ib_bounds := [(PT, TPartialEq)] |};
    {| ib_self := TyMaybeFormat; ib_trait := TCopy; ib_bounds := [] |};
    {| ib_self := TyMaybeFormat; ib_trait := TClone; ib_bounds := [] |};
    {| ib_self := TyMaybeFormatOr; ib_trait := TCopy; ib_bounds := [(PSecond, TCopy)] |};
    {| ib_self := TyMaybeFormatOr; ib_trait := TClone; ib_bounds := [(PSecond, TClone)] |};
    {| ib_self := TyMaybeFormatOrElse; ib_trait := TCopy; ib_bounds := [(PSecond, TCopy)] |};
    {| ib_self := TyMaybeFormatOrElse; ib_trait := TClone; ib_bounds := [(PSecond, TClone)] |} ]
  ++ flat_map fmt_impls
       [Binary; Debug; Display; LowerExp; LowerHex; Octal; Pointer; UpperExp; UpperHex].

(** Whether [ty] implements [tr] when the type parameters implement the
    traits [caps] says they do: some impl block's bounds all hold. *)
Definition implements (caps : Param -> RustTrait -> bool) (ty : Ty) (tr : RustTrait) : bool :=
  existsb (fun ib => ty_eqb (ib_self ib) ty && trait_eqb (ib_trait ib) tr
                     && forallb (fun '(p, t) => caps p t) (ib_bounds ib))
    crate_impls.

End Fmtor.

(** ** Running formatting calls *)

Module Harness.
Import Fmtor.

(** [n] repetitions of one formatting call, stopping at the first error. *)
Fixpoint repeat_fmt {Env} (n : nat) (m : FmtM Env unit) : FmtM Env unit :=
  match n with
  | O => ret tt
  | S n' => m ;;; repeat_fmt n' m
  end.

(** The width directive, [0] when absent. *)
Definition width_or_zero (f : Formatter) : nat :=
  match width f with Some n => n | None => 0 end.

(** An empty, unbounded output sink ([String]) and no environment. *)
Definition empty_world : @World unit := mkWorld (mkSink "" None) tt.

(** The text a formatting call leaves in an empty [String]. *)
Definition rendered (m : FmtM unit unit) : string := written (sink (fst (m empty_world))).

(** The directives of [{:#}]-style specs: the alternate flag only. *)
Definition alternate_formatter : Formatter :=
  mkFormatter " "%char None None None false false true false false false.

(** [{:3}]: width 3. *)
Definition width3_formatter : Formatter :=
  mkFormatter " "%char None (Some 3) None false false false false false false.

(** A producer that counts its calls in the environment. *)
Definition counting {U} (u : U) : @Producer nat U := fun n => (S n, u).

(** A call that, on an unbounded sink, succeeds, only appends to the sink
    and leaves the environment alone. *)
Definition benign {Env A} (m : FmtM Env A) : Prop :=
  forall w, room (sink w) = None ->
  exists s' a, m w = (mkWorld (mkSink s' None) (env w), Ok a).

End Harness.

(** ** Equations of the wrappers *)

Module FmtorFacts.
Import CoreFmt Fmtor Harness.

Lemma append_empty_r (s : string) : (s ++ "")%string = s.
Proof. induction s as [|c s IH]; simpl; [reflexivity | now rewrite IH]. Qed.

Lemma world_eta {Env} (w : @World Env) : mkWorld (sink w) (env w) = w.
Proof. now destruct w. Qed.

Lemma write_str_empty {Env} (w : @World Env) : write_str "" w = (w, Ok tt).
Proof.
  destruct w as [[s [n|]] e]; unfold write_str; simpl; rewrite append_empty_r;
    [now rewrite Nat.sub_0_r | reflexivity].
Qed.

Lemma write_fill_add {Env} (a b : nat) (c : ascii) (w : @World Env) :
  (write_fill a c ;;; write_fill b c) w = write_fill (a + b) c w.
Proof.
  revert w; induction a as [|a IH]; intro w; simpl.
  - reflexivity.
  - unfold bind at 1 2 3.
    destruct (write_char c w) as [w' [[]|e]]; [|reflexivity].
    rewrite <- IH. reflexivity.
Qed.

Lemma bind_ext {Env A B} (m1 m2 : FmtM Env A) (k1 k2 : A -> FmtM Env B) :
  (forall w, m1 w = m2 w) -> (forall a w, k1 a w = k2 a w) ->
  forall w, bind m1 k1 w = bind m2 k2 w.
Proof.
  intros Hm Hk w. unfold bind. rewrite Hm. destruct (m2 w) as [w' [a|e]]; auto.
Qed.

Lemma repeat_fmt_ext {Env} (n : nat) (m1 m2 : FmtM Env unit) :
  (forall w, m1 w = m2 w) -> forall w, repeat_fmt n m1 w = repeat_fmt n m2 w.
Proof.
  intros H. induction n as [|n IH]; intro w; simpl; [reflexivity|].
  apply bind_ext; auto.
Qed.

(** [MaybeFormatOrElse] over [Some]: the inner value's own call. *)
Lemma or_else_some {Env T U} (fmt_T : fmt_fn Env T) (display_U : fmt_fn Env U)
  (v : T) (p : Producer U) (out : Formatter) (w : World) :
  maybe_format_or_else_fmt fmt_T display_U (fmt_or_else (Some v) p) out w = fmt_T v out w.
Proof. reflexivity. Qed.

(** [MaybeFormatOrElse] over [None]: one call of the producer, then
    [Display] of its result. *)
Lemma or_else_none {Env T U} (fmt_T : fmt_fn Env T) (display_U : fmt_fn Env U)
  (p : Producer U) (out : Formatter) (w : World) :
  maybe_format_or_else_fmt fmt_T display_U (fmt_or_else None p) out w
  = let (e', u) := p (env w) in display_U u out (mkWorld (sink w) e').
Proof.
  unfold maybe_format_or_else_fmt, fmt_or_else, bind, call; simpl.
  destruct (p (env w)); reflexivity.
Qed.

(** [MaybeFormatOr]: the inner value's call, or [Display] of the stored
    fallback. *)
Lemma or_eq {Env T U} (fmt_T : fmt_fn Env T) (display_U : fmt_fn Env U)
  (o : option T) (u : U) (out : Formatter) (w : World) :
  maybe_format_or_fmt fmt_T display_U (fmt_or o u) out w
  = match o with Some v => fmt_T v out w | None => display_U u out w end.
Proof.
  destruct o as [v|]; [reflexivity|].
  unfold maybe_format_or_fmt, fmt_or; simpl mfo_0; simpl mfo_1.
  rewrite or_else_none. simpl. now rewrite world_eta.
Qed.

(** Pre-padding, [""], post-padding: [pre + post] fill characters. *)
Lemma padded_empty {Env} (pre post : nat) (c : ascii) (w : @World Env) :
  (post' <- (write_fill pre c ;;; ret post) ;; write_str "" ;;; write_fill post' c) w
  = write_fill (pre + post) c w.
Proof.
  rewrite <- write_fill_add. unfold bind.
  destruct (write_fill pre c w) as [w' [[]|e]]; [|reflexivity].
  simpl. rewrite write_str_empty. reflexivity.
Qed.

(** [Formatter::padding] writes [pre] fill characters and returns [post],
    with [pre + post] the padding asked for. *)
Lemma padding_split {Env} (f : Formatter) (n : nat) (d : Alignment) :
  exists pre post, pre + post = n /\
    forall w : @World Env, padding f n d w = (write_fill pre (fill f) ;;; ret post) w.
Proof.
  unfold padding.
  destruct (match align f with None => d | Some a => a end) as [| |].
  - exists 0, n. split; [lia | reflexivity].
  - exists n, 0. split; [lia | reflexivity].
  - exists (Nat.div n 2), (Nat.div (n + 1) 2). split; [|reflexivity].
    pose proof (Nat.div_mod n 2 ltac:(lia)).
    pose proof (Nat.div_mod (n + 1) 2 ltac:(lia)).
    pose proof (Nat.mod_upper_bound n 2 ltac:(lia)).
    pose proof (Nat.mod_upper_bound (n + 1) 2 ltac:(lia)).
    lia.
Qed.

Ltac padded_tac :=
  match goal with
  | |- (bind (@padding ?E ?f ?n ?d) _) ?w = write_fill _ ?c ?w =>
      destruct (@padding_split E f n d) as (pre & post & Hn & Hp);
      transitivity ((post' <- (write_fill pre c ;;; ret post) ;;
                     write_str "" ;;; write_fill post' c) w);
      [apply bind_ext; [exact Hp | reflexivity]
      |rewrite padded_empty, Hn; reflexivity]
  end.

(** [Display] of [""] writes [width] fill characters and nothing else. *)
Lemma str_display_empty {Env} (out : Formatter) (w : @World Env) :
  str_display "" out w = write_fill (width_or_zero out) (fill out) w.
Proof.
  unfold str_display, pad, width_or_zero.
  destruct (width out) as [n|]; destruct (precision out) as [p|];
    cbn -[padding write_fill write_str];
    try (rewrite write_str_empty; reflexivity).
  - destruct p; cbn -[padding write_fill write_str];
      (destruct n as [|n]; cbn -[padding write_fill write_str];
       [rewrite write_str_empty; reflexivity|]); padded_tac.
  - destruct n as [|n]; cbn -[padding write_fill write_str];
      [rewrite write_str_empty; reflexivity|]; padded_tac.
Qed.

Lemma benign_ret {Env A} (a : A) : benign (Env:=Env) (ret a).
Proof.
  intros [[t r] e] H; simpl in H; subst r. exists t, a. reflexivity.
Qed.

Lemma benign_bind {Env A B} (m : FmtM Env A) (k : A -> FmtM Env B) :
  benign m -> (forall a, benign (k a)) -> benign (bind m k).
Proof.
  intros Hm Hk w Hw. destruct (Hm w Hw) as (s' & a & Heq).
  unfold bind. rewrite Heq. apply (Hk a (mkWorld (mkSink s' None) (env w))). reflexivity.
Qed.

Lemma benign_write_str {Env} (s : string) : benign (Env:=Env) (write_str s).
Proof.
  intros [[t r] e] H; simpl in H; subst r. exists (t ++ s)%string, tt. reflexivity.
Qed.

Lemma benign_write_fill {Env} (n : nat) (c : ascii) : benign (Env:=Env) (write_fill n c).
Proof.
  induction n as [|n IH]; simpl.
  - apply benign_ret.
  - apply benign_bind; [apply benign_write_str | intros; exact IH].
Qed.

Lemma benign_padding {Env} (f : Formatter) (n : nat) (d : Alignment) :
  benign (Env:=Env) (padding f n d).
Proof.
  unfold padding.
  destruct (match align f with None => d | Some a => a end);
    apply benign_bind; try apply benign_write_fill; intros; apply benign_ret.
Qed.

(** [Display] of a string into an unbounded sink always succeeds. *)
Lemma benign_str_display {Env} (s : string) (f : Formatter) :
  benign (Env:=Env) (str_display s f).
Proof.
  unfold str_display, pad.
  destruct (width f) as [n|]; destruct (precision f) as [p|];
    try apply benign_write_str;
    try (destruct (Nat.ltb p (String.length s)));
    try (destruct (Nat.leb n _));
    repeat first [ apply benign_write_str | apply benign_padding | apply benign_write_fill
                 | apply benign_bind | intro ].
Qed.

End FmtorFacts.

(** ** The claims *)

Module Claims.
Import CoreFmt Fmtor Harness FmtorFacts.

(** C1: over [Some v], each of the three wrappers formats under a mode
    exactly as [v]'s own implementation of that mode does, under every
    formatter directive and from every sink state. *)
Theorem present_value_transparency {Env T U} (fmt_T : fmt_fn Env T)
  (display_U : fmt_fn Env U) (v : T) (u : U) (p : @Producer Env U)
  (out : Formatter) (w : World) :
  maybe_format_fmt fmt_T (fmt_or_empty (Some v)) out w = fmt_T v out w /\
  maybe_format_or_fmt fmt_T display_U (fmt_or (Some v) u) out w = fmt_T v out w /\
  maybe_format_or_else_fmt fmt_T display_U (fmt_or_else (Some v) p) out w = fmt_T v out w.
Proof.
  split; [|split].
  - unfold maybe_format_fmt. apply or_eq.
  - apply or_eq.
  - apply or_else_some.
Qed.

(** C2 (counterexample): [fmt_or_empty] over [None] does not always render
    as the empty string: under [{:3}] it renders three spaces. *)
Lemma absent_empty_counterexample :
  ~ (forall out : Formatter,
       rendered (maybe_format_fmt i32_display (fmt_or_empty None) out) = "").
Proof.
  intro H. specialize (H width3_formatter). vm_compute in H. discriminate H.
Qed.

(** C2 (amended): [fmt_or_empty] over [None], under any mode, writes
    exactly [width] copies of the fill character (none when no width is
    given) and nothing else, whatever the alignment, precision and flags. *)
Theorem absent_empty_writes_width_fill {Env T} (fmt_T : fmt_fn Env T)
  (out : Formatter) (w : World) :
  maybe_format_fmt fmt_T (fmt_or_empty None) out w
  = write_fill (width_or_zero out) (fill out) w.
Proof.
  unfold maybe_format_fmt. rewrite or_eq. apply str_display_empty.
Qed.

(** C3: [fmt_or(None, fb)] under any mode formats exactly as [fb]'s
    [Display] does under the same directives. *)
Theorem absent_fallback_law {Env T U} (fmt_T : fmt_fn Env T)
  (display_U : fmt_fn Env U) (fb : U) (out : Formatter) (w : World) :
  maybe_format_or_fmt fmt_T display_U (fmt_or None fb) out w = display_U fb out w.
Proof. apply or_eq. Qed.

(** C4: over [None], [fmt_or_else] runs the producer once on the
    environment and formats its result with [Display]; over [Some v], the
    producer is never run and the result is [v]'s mode-M formatting. *)
Theorem producer_invocation_law {Env T U} (fmt_T : fmt_fn Env T)
  (display_U : fmt_fn Env U) (p : @Producer Env U) (v : T)
  (out : Formatter) (w : World) :
  maybe_format_or_else_fmt fmt_T display_U (fmt_or_else None p) out w
    = (let (e', u) := p (env w) in display_U u out (mkWorld (sink w) e')) /\
  maybe_format_or_else_fmt fmt_T display_U (fmt_or_else (Some v) p) out w
    = fmt_T v out w.
Proof. split; [apply or_else_none | apply or_else_some]. Qed.

(** C5: [fmt_or_empty] formats as [fmt_or] with the fallback [""]. *)
Theorem empty_fallback_refines_value_fallback {Env T} (fmt_T : fmt_fn Env T)
  (o : option T) (out : Formatter) (w : @World Env) :
  maybe_format_fmt fmt_T (fmt_or_empty o) out w
  = maybe_format_or_fmt fmt_T str_display (fmt_or o "") out w.
Proof. reflexivity. Qed.

(** C6: the result of every wrapper's call is the result of the call it
    delegates to: the inner value's mode-M call when present, the
    fallback's [Display] call (after the producer, for [fmt_or_else]) when
    absent; the wrapper adds no error and drops none. *)
Theorem error_propagation {Env T U} (fmt_T : fmt_fn Env T)
  (display_U : fmt_fn Env U) (o : option T) (u : U) (p : @Producer Env U)
  (out : Formatter) (w : World) :
  snd (maybe_format_fmt fmt_T (fmt_or_empty o) out w)
    = snd (match o with Some v => fmt_T v out w | None => str_display "" out w end) /\
  snd (maybe_format_or_fmt fmt_T display_U (fmt_or o u) out w)
    = snd (match o with Some v => fmt_T v out w | None => display_U u out w end) /\
  snd (maybe_format_or_else_fmt fmt_T display_U (fmt_or_else o p) out w)
    = snd (match o with
           | Some v => fmt_T v out w
           | None => let (e', x) := p (env w) in display_U x out (mkWorld (sink w) e')
           end).
Proof.
  split; [|split].
  - unfold maybe_format_fmt. now rewrite or_eq.
  - now rewrite or_eq.
  - destruct o as [v|]; [now rewrite or_else_some | now rewrite or_else_none].
Qed.

(** C7: each wrapper implements a formatting trait exactly when [T] does;
    of the fallback, [MaybeFormatOr] asks [U: Display] only, and
    [MaybeFormatOrElse] asks [F: Fn() -> U] with [U: Display] only. *)
Theorem conditional_mode_conformance (caps : Param -> RustTrait -> bool) (m : Mode) :
  implements caps TyMaybeFormat (TFmt m) = caps PT (TFmt m) /\
  implements caps TyMaybeFormatOr (TFmt m)
    = caps PT (TFmt m) && caps PSecond (TFmt Display) /\
  implements caps TyMaybeFormatOrElse (TFmt m)
    = caps PT (TFmt m) && caps PSecond TFnNoArgs && caps PFOut (TFmt Display).
Proof.
  destruct m; repeat split; unfold implements; simpl;
    repeat match goal with |- context [caps ?a ?b] => destruct (caps a b) end;
    reflexivity.
Qed.

(** C8: the literal scenarios of the test suite. *)
Theorem literal_scenarios :
  rendered (maybe_format_or_fmt i32_debug str_display (fmt_or (Some 7%Z) "")
              default_formatter) = "7" /\
  rendered (maybe_format_fmt i32_debug (fmt_or_empty (Some 7%Z)) default_formatter) = "7" /\
  rendered (maybe_format_or_fmt i32_binary str_display (fmt_or (Some 7%Z) "")
              default_formatter) = "111" /\
  rendered (maybe_format_or_fmt i32_binary str_display (fmt_or (Some 7%Z) "")
              alternate_formatter) = "0b111" /\
  rendered (maybe_format_or_fmt i32_lower_hex str_display (fmt_or None "Null")
              alternate_formatter) = "Null" /\
  rendered (maybe_format_or_fmt i32_lower_hex str_display (fmt_or (Some 10%Z) "Null")
              alternate_formatter) = "0xa".
Proof. repeat split; vm_compute; reflexivity. Qed.

(** C9: [fmt_or(opt, u)] formats as [fmt_or_else(opt, || &u)], whose
    producer leaves the environment alone; the stored [u] is unchanged by
    formatting, so [n] formatting calls of one wrapper are [n] calls of the
    delegate. *)
Theorem value_fallback_is_lazy_fallback {Env T U} (fmt_T : fmt_fn Env T)
  (display_U : fmt_fn Env U) (o : option T) (u : U) (out : Formatter)
  (w : World) (n : nat) :
  maybe_format_or_fmt fmt_T display_U (fmt_or o u) out w
    = maybe_format_or_else_fmt fmt_T display_U (fmt_or_else o (fun e => (e, u))) out w /\
  repeat_fmt n (maybe_format_or_fmt fmt_T display_U (fmt_or o u) out) w
    = repeat_fmt n (match o with Some v => fmt_T v out | None => display_U u out end) w.
Proof.
  split; [reflexivity|].
  apply repeat_fmt_ext. intro w'. rewrite or_eq. now destruct o.
Qed.

(** C10: [MaybeFormat] compares as the borrowed options do, and implements
    [PartialEq] / [Eq] exactly when [T] does; [MaybeFormatOr] and
    [MaybeFormatOrElse] implement neither. *)
Theorem empty_wrapper_equality {T} (eq_T : T -> T -> bool) (o1 o2 : option T)
  (caps : Param -> RustTrait -> bool) :
  maybe_format_eq eq_T (fmt_or_empty o1) (fmt_or_empty o2) = option_eq eq_T o1 o2 /\
  implements caps TyMaybeFormat TPartialEq = caps PT TPartialEq /\
  implements caps TyMaybeFormat TEq = caps PT TEq /\
  implements caps TyMaybeFormatOr TPartialEq = false /\
  implements caps TyMaybeFormatOr TEq = false /\
  implements caps TyMaybeFormatOrElse TPartialEq = false /\
  implements caps TyMaybeFormatOrElse TEq = false.
Proof.
  repeat split; unfold implements; simpl;
    repeat match goal with |- context [caps ?a ?b] => destruct (caps a b) end;
    reflexivity.
Qed.

End Claims.

(** ** Further properties of [src/lib.rs] *)

Module Extras.
Import CoreFmt Fmtor Harness FmtorFacts.

(** Over [None], a string fallback is written verbatim under every mode and
    every flag ([#], [+], [0], debug-hex) when no width or precision is
    given: the mode's flags never decorate the fallback. *)
Theorem fallback_ignores_mode_flags {Env T} (fmt_T : fmt_fn Env T) (s : string)
  (out : Formatter) (w : World) :
  width out = None -> precision out = None ->
  maybe_format_or_fmt fmt_T str_display (fmt_or None s) out w = write_str s w.
Proof.
  intros Hw Hp. rewrite or_eq. unfold str_display, pad. now rewrite Hw, Hp.
Qed.

Lemma fallback_ignores_mode_flags_witness :
  width alternate_formatter = None /\ precision alternate_formatter = None /\
  maybe_format_or_fmt i32_lower_hex str_display (fmt_or None "Null") alternate_formatter
    empty_world = write_str "Null" empty_world.
Proof.
  split; [reflexivity | split; [reflexivity |]].
  apply fallback_ignores_mode_flags; reflexivity.
Defined.

(** Over [None], a string fallback shorter than the width and with no
    alignment given is left-aligned: the text, then the fill characters,
    whatever the mode (integers would be right-aligned). *)
Theorem fallback_padded_left {Env T} (fmt_T : fmt_fn Env T) (s : string)
  (out : Formatter) (n : nat) (w : World) :
  width out = Some n -> precision out = None -> align out = None ->
  String.length s < n ->
  maybe_format_or_fmt fmt_T str_display (fmt_or None s) out w
  = (write_str s ;;; write_fill (n - String.length s) (fill out)) w.
Proof.
  intros Hw Hp Ha Hn. rewrite or_eq. unfold str_display, pad. rewrite Hw, Hp.
  replace (Nat.leb n (String.length s)) with false by (symmetry; apply Nat.leb_gt; lia).
  unfold padding. rewrite Ha. reflexivity.
Qed.

Lemma fallback_padded_left_witness :
  let out := mkFormatter "*"%char None (Some 6) None false false true false false false in
  width out = Some 6 /\ precision out = None /\ align out = None /\
  String.length "Null" < 6 /\
  maybe_format_or_fmt i32_lower_hex str_display (fmt_or None "Null") out empty_world
  = (write_str "Null" ;;; write_fill (6 - String.length "Null") (fill out)) empty_world.
Proof.
  intro out. split; [reflexivity | split; [reflexivity | split; [reflexivity | split]]].
  - simpl; lia.
  - apply fallback_padded_left; [reflexivity | reflexivity | reflexivity | simpl; lia].
Defined.



(** A wrapper is a valid fallback for another (it implements [Display]
    when its [T] does): [a.fmt_or(b.fmt_or(c))] renders [a] in the requested
    mode, else [b] with [Display], else [c] with [Display]. *)
Theorem fallback_chain {Env T T2 U} (fmt_T : fmt_fn Env T) (display_T2 : fmt_fn Env T2)
  (display_U : fmt_fn Env U) (a : option T) (b : option T2) (c : U)
  (out : Formatter) (w : World) :
  maybe_format_or_fmt fmt_T (maybe_format_or_fmt display_T2 display_U)
    (fmt_or a (fmt_or b c)) out w
  = match a with
    | Some x => fmt_T x out w
    | None => match b with Some y => display_T2 y out w | None => display_U c out w end
    end.
Proof. rewrite or_eq. destruct a; [reflexivity|]. apply or_eq. Qed.

(** The producer's result is not cached: formatting one [fmt_or_else]
    wrapper over [None] [n] times into a [String] calls the producer [n]
    times, and every call succeeds. *)
Theorem lazy_fallback_called_per_format {T} (fmt_T : fmt_fn nat T) (s : string)
  (out : Formatter) (n k : nat) (t : string) :
  let r := repeat_fmt n
             (maybe_format_or_else_fmt fmt_T str_display (fmt_or_else None (counting s)) out)
             (mkWorld (mkSink t None) k) in
  env (fst r) = k + n /\ snd r = Ok tt.
Proof.
  simpl. revert k t. induction n as [|n IH]; intros k t; simpl.
  - split; [lia | reflexivity].
  - set (m := maybe_format_or_else_fmt fmt_T str_display (fmt_or_else None (counting s)) out).
    destruct (benign_str_display (Env:=nat) s out (mkWorld (mkSink t None) (S k)) eq_refl)
      as (t' & [] & Hd).
    assert (Hstep : (m ;;; repeat_fmt n m) (mkWorld (mkSink t None) k)
                    = repeat_fmt n m (mkWorld (mkSink t' None) (S k))).
    { unfold bind at 1. subst m. rewrite or_else_none. simpl. now rewrite Hd. }
    rewrite Hstep. destruct (IH (S k) t') as [H1 H2]. subst m.
    split; [rewrite H1; lia | exact H2].
Qed.

(** [MaybeFormat] is [Copy] and [Clone] for every [T];
    [MaybeFormatOr] / [MaybeFormatOrElse] are [Copy] / [Clone] exactly when
    their second parameter ([U], [F]) is. *)
Theorem copy_clone_conformance (caps : Param -> RustTrait -> bool) :
  implements caps TyMaybeFormat TCopy = true /\
  implements caps TyMaybeFormat TClone = true /\
  implements caps TyMaybeFormatOr TCopy = caps PSecond TCopy /\
  implements caps TyMaybeFormatOr TClone = caps PSecond TClone /\
  implements caps TyMaybeFormatOrElse TCopy = caps PSecond TCopy /\
  implements caps TyMaybeFormatOrElse TClone = caps PSecond TClone.
Proof.
  repeat split; unfold implements; simpl;
    repeat match goal with |- context [caps ?a ?b] => destruct (caps a b) end;
    reflexivity.
Qed.





End Extras.

(** ** Scenarios of the producer law *)

Module Scenarios.
Import CoreFmt Fmtor Harness FmtorFacts.

(** [None::<i32>.fmt_or_else(|| "bar")] under [{}]: renders ["bar"], one
    producer call. *)
Example lazy_none_calls_once :
  maybe_format_or_else_fmt i32_display str_display (fmt_or_else None (counting "bar"))
    default_formatter (mkWorld (mkSink "" None) 0)
  = (mkWorld (mkSink "bar" None) 1, Ok tt).
Proof. vm_compute. reflexivity. Qed.

(** [Some(42).fmt_or_else(..)] under [{}]: renders ["42"], no call. *)
Example lazy_some_no_call :
  maybe_format_or_else_fmt i32_display str_display (fmt_or_else (Some 42%Z) (counting "bar"))
    default_formatter (mkWorld (mkSink "" None) 0)
  = (mkWorld (mkSink "42" None) 0, Ok tt).
Proof. vm_compute. reflexivity. Qed.

End Scenarios.
